(** * Schur-number solver: the constraint encoding, the two queries and the
      search driver of [shurs-numbers-z3.py], over an abstract SMT engine. *)

From Stdlib Require Import ZArith List String Bool Lia.
Import ListNotations.
Open Scope string_scope.
Open Scope list_scope.
Open Scope Z_scope.

(** ** The fragment of the z3 constraint language the program builds *)

Module Z3.

(** [Int("a")]: an integer constant, identified by its name. *)
Inductive const : Type :=
| Int (name : string).

(** [Array("A", IntSort(), IntSort())]. *)
Inductive array : Type :=
| Array (name : string).

Inductive term : Type :=
| IntVal (z : Z)
| Const (x : const)
| Select (arr : array) (idx : term)      (* arr[idx] *)
| Add (s t : term)
| Sub (s t : term).

#[local] Unset Elimination Schemes.
Inductive formula : Type :=
| Ge (s t : term)
| Le (s t : term)
| Lt (s t : term)
| Eq (s t : term)
| Distinct (s t : term)                  (* s != t *)
| And (fs : list formula)
| Or (fs : list formula)
| Implies (f g : formula)
| ForAll (xs : list const) (body : formula).
#[local] Set Elimination Schemes.

(** A model interprets every integer constant and every array. *)
Record model : Type := Model {
  ints : string -> Z;
  arrays : string -> Z -> Z
}.

Definition bind (x : const) (v : Z) (m : model) : model :=
  match x with
  | Int name =>
      Model (fun y => if String.eqb y name then v else ints m y) (arrays m)
  end.

(** [model.evaluate(t).as_long()] *)
Fixpoint evaluate (m : model) (t : term) : Z :=
  match t with
  | IntVal z => z
  | Const (Int name) => ints m name
  | Select (Array name) idx => arrays m name (evaluate m idx)
  | Add s t => evaluate m s + evaluate m t
  | Sub s t => evaluate m s - evaluate m t
  end.

Fixpoint holds (m : model) (f : formula) {struct f} : Prop :=
  match f with
  | Ge s t => evaluate m s >= evaluate m t
  | Le s t => evaluate m s <= evaluate m t
  | Lt s t => evaluate m s < evaluate m t
  | Eq s t => evaluate m s = evaluate m t
  | Distinct s t => evaluate m s <> evaluate m t
  | And fs =>
      (fix all (gs : list formula) : Prop :=
         match gs with
         | [] => True
         | g :: gs' => holds m g /\ all gs'
         end) fs
  | Or fs =>
      (fix any (gs : list formula) : Prop :=
         match gs with
         | [] => False
         | g :: gs' => holds m g \/ any gs'
         end) fs
  | Implies f g => holds m f -> holds m g
  | ForAll xs body =>
      (fix quantify (ys : list const) (m' : model) : Prop :=
         match ys with
         | [] => holds m' body
         | y :: ys' => forall v : Z, quantify ys' (bind y v m')
         end) xs m
  end.

(** A model of a solver session satisfies every assertion added to it. *)
Definition models (m : model) (assertions : list formula) : Prop :=
  Forall (holds m) assertions.

Definition satisfiable (assertions : list formula) : Prop :=
  exists m, models m assertions.

(** The answer of [Solver.check()]. *)
Inductive CheckSatResult : Type := sat | unsat | unknown.

(** A solver session is the list of its assertions, oldest first;
    [Solver()] is the empty session and [solver.add(f)] appends. *)
Definition Solver : list formula := [].

Definition add (s : list formula) (f : formula) : list formula := s ++ [f].

(** The engine behind [solver.check()] and [solver.model()]: both are
    functions of the assertions of the session. *)
Record Engine : Type := {
  check : list formula -> CheckSatResult;
  get_model : list formula -> model
}.

(** What [check()] promises: a model comes with every [sat], and [unsat] is
    only answered when there is none.  [unknown] promises nothing. *)
Definition sat_sound (z3 : Engine) : Prop :=
  forall s, check z3 s = sat -> models (get_model z3 s) s.

Definition unsat_sound (z3 : Engine) : Prop :=
  forall s, check z3 s = unsat -> forall m, ~ models m s.

End Z3.

Import Z3.
Coercion Const : const >-> term.

(** ** The program *)

(** [class ShurProblem] *)
Record ShurProblem : Type := mkShurProblem {
  total_colors : Z;
  total_numbers : Z;
  solver : list formula;
  coloring : array;
  a : const;
  b : const;
  c : const;
  abc_domains : formula;
  shur_rule : formula
}.

(** [ShurProblem.__init__] *)
Definition ShurProblem_init (total_colors total_numbers : Z) : ShurProblem :=
  let solver := Solver in
  let coloring := Array "A" in
  let i := Int "i" in
  let index_range := And [Ge i (IntVal 0); Lt i (IntVal total_numbers)] in
  let color_range :=
    And [Ge (Select coloring i) (IntVal 1);
         Le (Select coloring i) (IntVal total_colors)] in
  let solver := add solver (ForAll [i] (Implies index_range color_range)) in
  let a := Int "a" in
  let b := Int "b" in
  let c := Int "c" in
  let a_domain := And [Ge a (IntVal 1); Le a (IntVal total_numbers)] in
  let b_domain := And [Ge b (IntVal 1); Le b (IntVal total_numbers)] in
  let c_domain := And [Ge c (IntVal 1); Le c (IntVal total_numbers)] in
  {| total_colors := total_colors;
     total_numbers := total_numbers;
     solver := solver;
     coloring := coloring;
     a := a; b := b; c := c;
     abc_domains := And [a_domain; b_domain; c_domain];
     shur_rule := Eq (Add a b) c |}.

(** [enumerate(l)] and [range(n)] *)
Definition enumerate {A : Type} (l : list A) : list (Z * A) :=
  combine (map Z.of_nat (seq 0 (List.length l))) l.

Definition range (n : Z) : list Z :=
  map Z.of_nat (seq 0 (Z.to_nat n)).

(** The assertions of the session on which [check_solution] calls
    [check()]: the instance's, one pin per entry of the candidate, and the
    monochromatic-triple constraint on the free constants a, b, c. *)
Definition check_solution_session (total_colors total_numbers : Z)
    (candidate : list Z) : list formula :=
  let problem := ShurProblem_init total_colors total_numbers in
  let pinned :=
    fold_left
      (fun s '(i, color) =>
         add s (Eq (Select (coloring problem) (IntVal i)) (IntVal color)))
      (enumerate candidate) (solver problem) in
  add pinned
    (And [abc_domains problem;
          shur_rule problem;
          Eq (Select (coloring problem) (Sub (a problem) (IntVal 1)))
             (Select (coloring problem) (Sub (b problem) (IntVal 1)));
          Eq (Select (coloring problem) (Sub (b problem) (IntVal 1)))
             (Select (coloring problem) (Sub (c problem) (IntVal 1)))]).

(** The assertions of the session on which [assign_colors] calls
    [check()]. *)
Definition assign_colors_session (total_colors total_numbers : Z)
    : list formula :=
  let problem := ShurProblem_init total_colors total_numbers in
  add (solver problem)
    (ForAll [a problem; b problem; c problem]
       (Implies
          (And [abc_domains problem; shur_rule problem])
          (Or [Distinct
                 (Select (coloring problem) (Sub (a problem) (IntVal 1)))
                 (Select (coloring problem) (Sub (b problem) (IntVal 1)));
               Distinct
                 (Select (coloring problem) (Sub (b problem) (IntVal 1)))
                 (Select (coloring problem) (Sub (c problem) (IntVal 1)))]))).

(** What the iterate loop prints: the progress line of every iteration
    (its elapsed time left out) and the [S(C) = N] line. *)
Inductive line : Type :=
| Took (colors numbers : Z)
| SchurNumber (colors numbers : Z).

Section Program.

Variable z3 : Engine.

(** [check_solution]: the returned flag, and the counterexample it
    prints, if any. *)
Definition check_solution (total_colors total_numbers : Z)
    (candidate : list Z) : bool * option (Z * Z * Z) :=
  let problem := ShurProblem_init total_colors total_numbers in
  let session := check_solution_session total_colors total_numbers candidate in
  match check z3 session with
  | sat =>
      let model := get_model z3 session in
      let a_value := evaluate model (a problem) in
      let b_value := evaluate model (b problem) in
      let c_value := evaluate model (c problem) in
      (false, Some (a_value, b_value, c_value))
  | _ => (true, None)
  end.

(** [assign_colors] *)
Definition assign_colors (total_colors total_numbers : Z) : list Z :=
  let problem := ShurProblem_init total_colors total_numbers in
  let session := assign_colors_session total_colors total_numbers in
  match check z3 session with
  | sat =>
      let model := get_model z3 session in
      map (fun i => evaluate model (Select (coloring problem) (IntVal i)))
          (range total_numbers)
  | _ => []
  end.

(** Python's [not l] on a list. *)
Definition py_not {A : Type} (l : list A) : bool :=
  match l with
  | [] => true
  | _ :: _ => false
  end.

(** One iteration of the [while True] loop of [main] in iterate mode:
    the lines it prints and the next [(total_colors, total_numbers)]. *)
Definition iterate_step (st : Z * Z) : list line * (Z * Z) :=
  let '(total_colors, total_numbers) := st in
  let assigned_colors := assign_colors total_colors total_numbers in
  let out := [Took total_colors total_numbers] in
  if py_not assigned_colors
  then (out ++ [SchurNumber total_colors total_numbers],
        (total_colors + 1, total_numbers + 1))
  else (out, (total_colors, total_numbers + 1)).

(** The first [n] iterations of the loop from a state. *)
Fixpoint iterate_from (n : nat) (st : Z * Z) : list line * (Z * Z) :=
  match n with
  | O => ([], st)
  | S n' =>
      let '(out, st') := iterate_step st in
      let '(out', st'') := iterate_from n' st' in
      (out ++ out', st'')
  end.

(** [main] with [--iterate], cut after [n] iterations. *)
Definition main_iterate (n : nat) : list line * (Z * Z) :=
  iterate_from n (1, 1).

End Program.

(** ** What the two sessions say *)

(** The colouring [A] gives every number 1..N (index 0..N-1) one of the
    colours 1..C. *)
Definition well_formed (C N : Z) (A : Z -> Z) : Prop :=
  forall i, 0 <= i < N -> 1 <= A i <= C.

(** [(x, y, z)] is a Schur triple of 1..N whose three numbers have the same
    colour under [A]. *)
Definition monochromatic (N : Z) (A : Z -> Z) (x y z : Z) : Prop :=
  (1 <= x <= N /\ 1 <= y <= N /\ 1 <= z <= N) /\
  x + y = z /\
  A (x - 1) = A (y - 1) /\ A (y - 1) = A (z - 1).

Definition triple_free (N : Z) (A : Z -> Z) : Prop :=
  forall x y z, ~ monochromatic N A x y z.

(** The candidate list pins the cells of [A] it has an entry for. *)
Definition pinned_to (candidate : list Z) (A : Z -> Z) : Prop :=
  forall (i : nat) (color : Z),
    nth_error candidate i = Some color -> A (Z.of_nat i) = color.

(** ** A reference engine

    An executable engine for the sessions this program builds: it reads
    the instance back from the assertions, recognises the session of
    [assign_colors] or of [check_solution], and decides it by enumeration.
    On anything else it answers [unknown]. *)

Definition const_eqb (x y : const) : bool :=
  match x, y with
  | Int n, Int n' => String.eqb n n'
  end.

Definition array_eqb (x y : array) : bool :=
  match x, y with
  | Array n, Array n' => String.eqb n n'
  end.

Fixpoint term_eqb (s t : term) : bool :=
  match s, t with
  | IntVal z, IntVal z' => Z.eqb z z'
  | Const x, Const y => const_eqb x y
  | Select arr i, Select arr' i' => array_eqb arr arr' && term_eqb i i'
  | Add s1 s2, Add t1 t2 => term_eqb s1 t1 && term_eqb s2 t2
  | Sub s1 s2, Sub t1 t2 => term_eqb s1 t1 && term_eqb s2 t2
  | _, _ => false
  end.

Section ListEqb.
Context {A : Type}.
Variable eqb : A -> A -> bool.

Fixpoint list_eqb (l l' : list A) : bool :=
  match l, l' with
  | [], [] => true
  | x :: k, y :: k' => eqb x y && list_eqb k k'
  | _, _ => false
  end.

End ListEqb.

Fixpoint formula_eqb (f g : formula) {struct f} : bool :=
  match f, g with
  | Ge s t, Ge s' t' => term_eqb s s' && term_eqb t t'
  | Le s t, Le s' t' => term_eqb s s' && term_eqb t t'
  | Lt s t, Lt s' t' => term_eqb s s' && term_eqb t t'
  | Eq s t, Eq s' t' => term_eqb s s' && term_eqb t t'
  | Distinct s t, Distinct s' t' => term_eqb s s' && term_eqb t t'
  | And fs, And gs => list_eqb formula_eqb fs gs
  | Or fs, Or gs => list_eqb formula_eqb fs gs
  | Implies f1 f2, Implies g1 g2 => formula_eqb f1 g1 && formula_eqb f2 g2
  | ForAll xs f', ForAll ys g' => list_eqb const_eqb xs ys && formula_eqb f' g'
  | _, _ => false
  end.

Definition session_eqb : list formula -> list formula -> bool :=
  list_eqb formula_eqb.

(** The instance [(C, N)] as written in the first assertion of a session. *)
Definition read_instance (s : list formula) : option (Z * Z) :=
  match s with
  | ForAll _ (Implies (And [_; Lt _ (IntVal N)]) (And [_; Le _ (IntVal C)])) :: _ =>
      Some (C, N)
  | _ => None
  end.

(** The colours of the pins of a session. *)
Definition read_candidate (s : list formula) : list Z :=
  flat_map (fun f => match f with
                     | Eq (Select _ (IntVal _)) (IntVal color) => [color]
                     | _ => []
                     end) s.

(** The colour of number [x] in the list [l] (0 when [l] is too short). *)
Definition color_of (l : list Z) (i : Z) : Z := nth (Z.to_nat i) l 0.

Definition palette (C : Z) : list Z := map (fun k => Z.of_nat k + 1) (seq 0 (Z.to_nat C)).

(** Every list of [n] colours of 1..C. *)
Fixpoint colorings (C : Z) (n : nat) : list (list Z) :=
  match n with
  | O => [[]]
  | S n' => flat_map (fun l => map (fun k => k :: l) (palette C)) (colorings C n')
  end.

Definition monochromaticb (N : Z) (l : list Z) (x y : Z) : bool :=
  (x + y <=? N) &&
  (color_of l (x - 1) =? color_of l (y - 1)) &&
  (color_of l (y - 1) =? color_of l (x + y - 1)).

(** The first monochromatic Schur triple of 1..N under [l], if any. *)
Definition find_triple (N : Z) (l : list Z) : option (Z * Z * Z) :=
  let numbers := map (fun i => i + 1) (range N) in
  match find (fun '(x, y) => monochromaticb N l x y)
             (list_prod numbers numbers) with
  | Some (x, y) => Some (x, y, x + y)
  | None => None
  end.

Definition triple_freeb (N : Z) (l : list Z) : bool :=
  match find_triple N l with
  | Some _ => false
  | None => true
  end.

Definition in_palette (C : Z) (color : Z) : bool :=
  (1 <=? color) && (color <=? C).

Definition model_of (l : list Z) (xyz : Z * Z * Z) : model :=
  let '(x, y, z) := xyz in
  Model (fun name => if String.eqb name "a" then x
                     else if String.eqb name "b" then y
                     else if String.eqb name "c" then z
                     else 0)
        (fun _ => color_of l).

Inductive verdict : Type :=
| Found (m : model)
| NoModel
| GaveUp.

Definition solve_assign_colors (C N : Z) : verdict :=
  match find (triple_freeb N) (colorings C (Z.to_nat N)) with
  | Some l => Found (model_of l (0, 0, 0))
  | None => NoModel
  end.

Definition solve_check_solution (C N : Z) (candidate : list Z) : verdict :=
  if negb (forallb (in_palette C) (firstn (Z.to_nat N) candidate)) then NoModel
  else if negb (Z.of_nat (List.length candidate) =? N) then GaveUp
  else match find_triple N candidate with
       | Some xyz => Found (model_of candidate xyz)
       | None => NoModel
       end.

Definition reference_solve (s : list formula) : verdict :=
  match read_instance s with
  | None => GaveUp
  | Some (C, N) =>
      if session_eqb s (assign_colors_session C N)
      then solve_assign_colors C N
      else
        let candidate := read_candidate s in
        if session_eqb s (check_solution_session C N candidate)
        then solve_check_solution C N candidate
        else GaveUp
  end.

Definition reference_check (s : list formula) : CheckSatResult :=
  match reference_solve s with
  | Found _ => sat
  | NoModel => unsat
  | GaveUp => unknown
  end.

Definition reference_model (s : list formula) : model :=
  match reference_solve s with
  | Found m => m
  | _ => model_of [] (0, 0, 0)
  end.

Definition reference : Engine :=
  {| check := reference_check; get_model := reference_model |}.

(** An engine that never decides anything. *)
Definition undecided : Engine :=
  {| check := fun _ => unknown; get_model := fun _ => model_of [] (0, 0, 0) |}.

(** ** Vocabulary for the further properties *)

(** [l] is a valid colouring of 1..N with the colours 1..C: one entry per
    number, every entry a colour, and no monochromatic Schur triple. *)
Definition valid_coloring (C N : Z) (l : list Z) : Prop :=
  Z.of_nat (List.length l) = N /\
  Forall (fun color => 1 <= color <= C) l /\
  triple_free N (color_of l).

(** The candidate has an entry for each of the N numbers, and these
    entries are colours of 1..C.  Entries past the N-th are not looked at. *)
Definition covers (C N : Z) (candidate : list Z) : bool :=
  (N <=? Z.of_nat (List.length candidate)) &&
  forallb (in_palette C) (firstn (Z.to_nat N) candidate).

(** The instances of the progress lines, and of the [S(C) = N] lines, of an
    output of the loop, in the order printed. *)
Definition queries (out : list line) : list (Z * Z) :=
  flat_map (fun l => match l with
                     | Took colors numbers => [(colors, numbers)]
                     | SchurNumber _ _ => []
                     end) out.

Definition schur_numbers (out : list line) : list (Z * Z) :=
  flat_map (fun l => match l with
                     | Took _ _ => []
                     | SchurNumber colors numbers => [(colors, numbers)]
                     end) out.

(** The test of the loop of [main] on the instance of a progress line. *)
Definition failed (z3 : Engine) (q : Z * Z) : bool :=
  py_not (assign_colors z3 (fst q) (snd q)).

(** An engine that knows two sessions of [check_solution], a valid
    candidate of the instance (2, 4) with and without an entry too many,
    to be unsatisfiable, and nothing else. *)
Definition known_unsat : list (list formula) :=
  [check_solution_session 2 4 [1; 2; 2; 1];
   check_solution_session 2 4 [1; 2; 2; 1; 9]].

Definition tabled : Engine :=
  {| check := fun s => if existsb (session_eqb s) known_unsat
                       then unsat else unknown;
     get_model := fun _ => model_of [] (0, 0, 0) |}.

(** An engine that knows a model of the session of [check_solution] for
    the empty candidate of the instance (1, 2), and nothing else. *)
Definition tabled_sat : Engine :=
  {| check := fun s => if session_eqb s (check_solution_session 1 2 [])
                       then sat else unknown;
     get_model := fun _ => model_of [1; 1] (1, 1, 2) |}.

(** The integers [first, first + 1, ..., first + n - 1]. *)
Definition count_from (first : Z) (n : nat) : list Z :=
  map (fun k => first + Z.of_nat k) (seq 0 n).

(** ** Facts about the sessions *)

Lemma fold_left_add (A B : Type) (f : A -> B -> formula) (l : list (A * B))
    (s : list formula) :
  fold_left (fun s '(i, x) => add s (f i x)) l s
  = s ++ map (fun '(i, x) => f i x) l.
Proof.
  revert s; induction l as [|[i x] l IH]; intros s; simpl.
  - now rewrite app_nil_r.
  - rewrite IH. unfold add. now rewrite <- app_assoc.
Qed.

Lemma check_solution_session_eq (C N : Z) (candidate : list Z) :
  check_solution_session C N candidate =
  solver (ShurProblem_init C N)
  ++ map (fun '(i, color) => Eq (Select (Array "A") (IntVal i)) (IntVal color))
         (enumerate candidate)
  ++ [And [abc_domains (ShurProblem_init C N);
           shur_rule (ShurProblem_init C N);
           Eq (Select (Array "A") (Sub (Int "a") (IntVal 1)))
              (Select (Array "A") (Sub (Int "b") (IntVal 1)));
           Eq (Select (Array "A") (Sub (Int "b") (IntVal 1)))
              (Select (Array "A") (Sub (Int "c") (IntVal 1)))]].
Proof.
  unfold check_solution_session.
  rewrite (fold_left_add _ _
    (fun i color => Eq (Select (coloring (ShurProblem_init C N)) (IntVal i))
                       (IntVal color))).
  unfold add. now rewrite <- app_assoc.
Qed.

Lemma In_enumerate_from (A : Type) (l : list A) (start : nat) (k : Z) (x : A) :
  In (k, x) (combine (map Z.of_nat (seq start (List.length l))) l) <->
  exists i, k = Z.of_nat (start + i) /\ nth_error l i = Some x.
Proof.
  revert start; induction l as [|y l IH]; intros start; simpl.
  - split; [tauto|]. intros [[|i] [_ H]]; discriminate.
  - rewrite IH. split.
    + intros [H|[i [-> H]]].
      * inversion H; subst. exists O. now rewrite Nat.add_0_r.
      * exists (S i). split; [f_equal; lia|assumption].
    + intros [[|i] [-> H]]; simpl in H.
      * left. inversion H. now rewrite Nat.add_0_r.
      * right. exists i. split; [f_equal; lia|assumption].
Qed.

Lemma In_enumerate (A : Type) (l : list A) (k : Z) (x : A) :
  In (k, x) (enumerate l) <-> exists i, k = Z.of_nat i /\ nth_error l i = Some x.
Proof. apply In_enumerate_from. Qed.

Lemma models_solver_init (m : model) (C N : Z) :
  models m (solver (ShurProblem_init C N)) <-> well_formed C N (arrays m "A").
Proof.
  unfold models, well_formed; simpl. split.
  - intros H i Hi. apply Forall_inv in H. simpl in H.
    specialize (H i). simpl in H. lia.
  - intros H. constructor; [|constructor]. simpl. intros v. simpl. intros Hv.
    specialize (H v). lia.
Qed.

Lemma models_assign_colors_session (m : model) (C N : Z) :
  models m (assign_colors_session C N) <->
  well_formed C N (arrays m "A") /\ triple_free N (arrays m "A").
Proof.
  unfold assign_colors_session, add, models. rewrite Forall_app.
  fold (models m (solver (ShurProblem_init C N))).
  rewrite models_solver_init. apply and_iff_compat_l.
  unfold triple_free, monochromatic. split.
  - intros H x y z Hm. apply Forall_inv in H. simpl in H.
    specialize (H x y z). simpl in H. lia.
  - intros H. constructor; [|constructor]. simpl. intros x y z. simpl.
    intros Hd. specialize (H x y z). lia.
Qed.

Lemma models_check_solution_session (m : model) (C N : Z) (candidate : list Z) :
  models m (check_solution_session C N candidate) <->
  well_formed C N (arrays m "A") /\
  pinned_to candidate (arrays m "A") /\
  monochromatic N (arrays m "A") (ints m "a") (ints m "b") (ints m "c").
Proof.
  rewrite check_solution_session_eq. unfold models. rewrite !Forall_app.
  fold (models m (solver (ShurProblem_init C N))).
  rewrite models_solver_init. apply and_iff_compat_l.
  assert (Hand : forall P P' Q Q' : Prop,
             (P <-> P') -> (Q <-> Q') -> (P /\ Q <-> P' /\ Q')) by tauto.
  apply Hand.
  - rewrite Forall_map, Forall_forall. unfold pinned_to. split.
    + intros H i color Hi. apply (H (Z.of_nat i, color)).
      apply In_enumerate. now exists i.
    + intros H [k color] Hin. apply In_enumerate in Hin as [i [-> Hi]].
      simpl. now apply H.
  - unfold monochromatic. split.
    + intros H. apply Forall_inv in H. simpl in H. lia.
    + intros H. constructor; [|constructor]. simpl. lia.
Qed.

(** ** The reference engine is sound *)

Lemma formula_nested_ind (P : formula -> Prop) :
  (forall s t, P (Ge s t)) ->
  (forall s t, P (Le s t)) ->
  (forall s t, P (Lt s t)) ->
  (forall s t, P (Eq s t)) ->
  (forall s t, P (Distinct s t)) ->
  (forall fs, Forall P fs -> P (And fs)) ->
  (forall fs, Forall P fs -> P (Or fs)) ->
  (forall f g, P f -> P g -> P (Implies f g)) ->
  (forall xs f, P f -> P (ForAll xs f)) ->
  forall f, P f.
Proof.
  intros HGe HLe HLt HEq HDi HAnd HOr HImp HAll.
  fix IH 1. intros [s t|s t|s t|s t|s t|fs|fs|f g|xs f].
  - apply HGe.
  - apply HLe.
  - apply HLt.
  - apply HEq.
  - apply HDi.
  - apply HAnd. induction fs as [|f fs IHfs]; constructor; [apply IH|exact IHfs].
  - apply HOr. induction fs as [|f fs IHfs]; constructor; [apply IH|exact IHfs].
  - apply HImp; apply IH.
  - apply HAll; apply IH.
Qed.

Lemma const_eqb_eq (x y : const) : const_eqb x y = true -> x = y.
Proof. destruct x, y; simpl. intros H; apply String.eqb_eq in H. now subst. Qed.

Lemma array_eqb_eq (x y : array) : array_eqb x y = true -> x = y.
Proof. destruct x, y; simpl. intros H; apply String.eqb_eq in H. now subst. Qed.

Lemma term_eqb_eq (s t : term) : term_eqb s t = true -> s = t.
Proof.
  revert t; induction s as [z|x|arr i IH|s1 IH1 s2 IH2|s1 IH1 s2 IH2];
    intros [z'|y|arr' i'|t1 t2|t1 t2]; simpl; try discriminate; intros H.
  - apply Z.eqb_eq in H. now subst.
  - apply const_eqb_eq in H. now subst.
  - apply andb_prop in H as [Ha Hi]. apply array_eqb_eq in Ha. apply IH in Hi.
    now subst.
  - apply andb_prop in H as [H1 H2]. apply IH1 in H1. apply IH2 in H2. now subst.
  - apply andb_prop in H as [H1 H2]. apply IH1 in H1. apply IH2 in H2. now subst.
Qed.

Lemma list_eqb_eq (A : Type) (eqb : A -> A -> bool) (l : list A) :
  Forall (fun x => forall y, eqb x y = true -> x = y) l ->
  forall l', list_eqb eqb l l' = true -> l = l'.
Proof.
  induction 1 as [|x l Hx Hl IH]; intros [|y l']; simpl; try discriminate.
  - reflexivity.
  - intros H. apply andb_prop in H as [H1 H2]. apply Hx in H1. apply IH in H2.
    now subst.
Qed.

Lemma formula_eqb_eq (f g : formula) : formula_eqb f g = true -> f = g.
Proof.
  revert g. induction f as [s t|s t|s t|s t|s t|fs IH|fs IH|f1 f2 IH1 IH2|xs f IH]
    using formula_nested_ind;
    intros [s' t'|s' t'|s' t'|s' t'|s' t'|gs|gs|g1 g2|ys g]; simpl;
    try discriminate; intros H.
  1-5: apply andb_prop in H as [H1 H2]; apply term_eqb_eq in H1, H2; now subst.
  - f_equal. now apply (list_eqb_eq _ formula_eqb).
  - f_equal. now apply (list_eqb_eq _ formula_eqb).
  - apply andb_prop in H as [H1 H2]. apply IH1 in H1. apply IH2 in H2. now subst.
  - apply andb_prop in H as [H1 H2]. apply IH in H2.
    apply (list_eqb_eq _ const_eqb) in H1.
    + now subst.
    + apply Forall_forall. intros x _ y. apply const_eqb_eq.
Qed.

Lemma session_eqb_eq (s s' : list formula) : session_eqb s s' = true -> s = s'.
Proof.
  apply list_eqb_eq. apply Forall_forall. intros f _ g. apply formula_eqb_eq.
Qed.

Lemma In_range (N i : Z) : In i (range N) <-> 0 <= i < N.
Proof.
  unfold range. rewrite in_map_iff. split.
  - intros [k [<- Hk]]. apply in_seq in Hk. lia.
  - intros Hi. exists (Z.to_nat i). split; [lia|]. apply in_seq. lia.
Qed.

Lemma length_range (N : Z) : List.length (range N) = Z.to_nat N.
Proof. unfold range. now rewrite length_map, length_seq. Qed.

Lemma In_palette (C k : Z) : In k (palette C) <-> 1 <= k <= C.
Proof.
  unfold palette. rewrite in_map_iff. split.
  - intros [j [<- Hj]]. apply in_seq in Hj. lia.
  - intros Hk. exists (Z.to_nat (k - 1)). split; [lia|]. apply in_seq. lia.
Qed.

Lemma In_colorings (C : Z) (n : nat) (l : list Z) :
  In l (colorings C n) <->
  List.length l = n /\ Forall (fun k => 1 <= k <= C) l.
Proof.
  revert l; induction n as [|n IH]; intros l; simpl.
  - split.
    + intros [<-|[]]. split; [reflexivity|constructor].
    + intros [Hl _]. left. symmetry. now apply length_zero_iff_nil.
  - rewrite in_flat_map. split.
    + intros [l' [Hl' Hin]]. apply in_map_iff in Hin as [k [<- Hk]].
      apply IH in Hl' as [Hlen Hall]. apply In_palette in Hk. simpl.
      split; [congruence|now constructor].
    + intros [Hlen Hall]. destruct l as [|k l']; [discriminate|].
      inversion Hall; subst. exists l'. split.
      * apply IH. split; [now inversion Hlen|assumption].
      * apply in_map_iff. exists k. split; [reflexivity|now apply In_palette].
Qed.

Lemma color_of_map_range (A : Z -> Z) (N i : Z) :
  0 <= i < N -> color_of (map A (range N)) i = A i.
Proof.
  intros Hi. unfold color_of.
  rewrite (nth_indep _ 0 (A 0)) by (rewrite length_map, length_range; lia).
  rewrite map_nth. f_equal. unfold range.
  rewrite (nth_indep _ 0 (Z.of_nat 0)) by (rewrite length_map, length_seq; lia).
  rewrite map_nth, seq_nth by lia. lia.
Qed.

Lemma color_of_nth_error (l : list Z) (i : nat) (color : Z) :
  nth_error l i = Some color -> color_of l (Z.of_nat i) = color.
Proof.
  intros H. unfold color_of. rewrite Nat2Z.id. now apply nth_error_nth.
Qed.

Lemma monochromatic_ext (N : Z) (A B : Z -> Z) (x y z : Z) :
  (forall i, 0 <= i < N -> A i = B i) ->
  monochromatic N A x y z -> monochromatic N B x y z.
Proof.
  intros Hext [Hd [Hs [H1 H2]]]. unfold monochromatic.
  rewrite <- !Hext by lia. tauto.
Qed.

Lemma find_triple_Some (N : Z) (l : list Z) (x y z : Z) :
  find_triple N l = Some (x, y, z) -> monochromatic N (color_of l) x y z.
Proof.
  unfold find_triple.
  destruct (find _ _) as [[x' y']|] eqn:Hf; [|discriminate].
  intros H; inversion H; subst; clear H.
  apply find_some in Hf as [Hin Hm]. apply in_prod_iff in Hin as [Hx Hy].
  apply in_map_iff in Hx as [i [<- Hi]]. apply in_map_iff in Hy as [j [<- Hj]].
  apply In_range in Hi, Hj.
  unfold monochromaticb in Hm.
  apply andb_prop in Hm as [Hm H2]. apply andb_prop in Hm as [H0 H1].
  apply Z.leb_le in H0. apply Z.eqb_eq in H1, H2.
  unfold monochromatic. repeat split; try lia; assumption.
Qed.

Lemma find_triple_None (N : Z) (l : list Z) :
  find_triple N l = None -> triple_free N (color_of l).
Proof.
  unfold find_triple.
  destruct (find _ _) as [[x' y']|] eqn:Hf; [discriminate|]. intros _.
  intros x y z [Hd [Hs [H1 H2]]]. subst z.
  assert (Hin : In (x, y) (list_prod (map (fun i => i + 1) (range N))
                                     (map (fun i => i + 1) (range N)))).
  { apply in_prod_iff. split; apply in_map_iff.
    - exists (x - 1). split; [lia|apply In_range; lia].
    - exists (y - 1). split; [lia|apply In_range; lia]. }
  apply (find_none _ _ Hf) in Hin. simpl in Hin. unfold monochromaticb in Hin.
  rewrite H1, H2, !Z.eqb_refl in Hin.
  destruct (Z.leb_spec (x + y) N); [discriminate|lia].
Qed.

Lemma triple_freeb_true (N : Z) (l : list Z) :
  triple_freeb N l = true -> triple_free N (color_of l).
Proof.
  unfold triple_freeb. destruct (find_triple N l) eqn:H; [discriminate|].
  intros _. now apply find_triple_None.
Qed.

Lemma triple_freeb_false (N : Z) (l : list Z) :
  triple_freeb N l = false -> exists x y z, monochromatic N (color_of l) x y z.
Proof.
  unfold triple_freeb. destruct (find_triple N l) as [[[x y] z]|] eqn:H;
    [|discriminate].
  intros _. exists x, y, z. now apply find_triple_Some.
Qed.

Lemma well_formed_color_of (C N : Z) (l : list Z) :
  N <= Z.of_nat (List.length l) ->
  Forall (fun k => 1 <= k <= C) (firstn (Z.to_nat N) l) ->
  well_formed C N (color_of l).
Proof.
  intros Hlen Hall i Hi. unfold color_of.
  rewrite Forall_forall in Hall. apply Hall.
  assert (Hn : (Z.to_nat i < Z.to_nat N)%nat) by lia.
  rewrite <- (firstn_skipn (Z.to_nat N) l) at 1.
  rewrite app_nth1 by (rewrite length_firstn; lia).
  apply nth_In. rewrite length_firstn. lia.
Qed.

Lemma solve_assign_colors_Found (C N : Z) (m : model) :
  solve_assign_colors C N = Found m -> models m (assign_colors_session C N).
Proof.
  unfold solve_assign_colors.
  destruct (find _ _) as [l|] eqn:Hf; [|discriminate].
  intros H; inversion H; subst; clear H.
  apply find_some in Hf as [Hin Hfree]. apply In_colorings in Hin as [Hlen Hall].
  apply models_assign_colors_session. simpl. split.
  - apply well_formed_color_of; [lia|].
    rewrite firstn_all2 by lia. exact Hall.
  - now apply triple_freeb_true.
Qed.

Lemma solve_assign_colors_NoModel (C N : Z) :
  solve_assign_colors C N = NoModel ->
  forall m, ~ models m (assign_colors_session C N).
Proof.
  unfold solve_assign_colors.
  destruct (find _ _) as [l|] eqn:Hf; [discriminate|]. intros _ m Hm.
  apply models_assign_colors_session in Hm as [Hwf Hfree].
  set (A := arrays m "A") in *.
  assert (Hin : In (map A (range N)) (colorings C (Z.to_nat N))).
  { apply In_colorings. split.
    - now rewrite length_map, length_range.
    - apply Forall_forall. intros k Hk.
      apply in_map_iff in Hk as [i [<- Hi]]. apply In_range in Hi.
      now apply Hwf. }
  apply (find_none _ _ Hf) in Hin.
  apply triple_freeb_false in Hin as [x [y [z Hmono]]].
  apply (Hfree x y z).
  apply (monochromatic_ext N (color_of (map A (range N)))); [|exact Hmono].
  intros i Hi. now apply color_of_map_range.
Qed.

Lemma forallb_firstn_false (A : Type) (f : A -> bool) (n : nat) (l : list A) :
  forallb f (firstn n l) = false ->
  exists i x, (i < n)%nat /\ nth_error l i = Some x /\ f x = false.
Proof.
  revert l; induction n as [|n IH]; intros [|x l]; simpl; try discriminate.
  destruct (f x) eqn:Hx; simpl.
  - intros H. apply IH in H as [i [y [Hi [Hn Hy]]]].
    exists (S i), y. repeat split; [lia|assumption|assumption].
  - intros _. exists O, x. repeat split; [lia|assumption].
Qed.

Lemma in_palette_spec (C color : Z) :
  in_palette C color = true <-> 1 <= color <= C.
Proof. unfold in_palette. rewrite andb_true_iff, !Z.leb_le. tauto. Qed.

Lemma pinned_to_color_of (candidate : list Z) (A : Z -> Z) (N : Z) :
  N <= Z.of_nat (List.length candidate) ->
  pinned_to candidate A ->
  forall i, 0 <= i < N -> A i = color_of candidate i.
Proof.
  intros Hlen Hpin i Hi.
  destruct (nth_error candidate (Z.to_nat i)) as [color|] eqn:Hn.
  - rewrite <- (Z2Nat.id i) by lia.
    rewrite (Hpin _ _ Hn). symmetry. now apply color_of_nth_error.
  - apply nth_error_None in Hn. lia.
Qed.

Lemma solve_check_solution_Found (C N : Z) (candidate : list Z) (m : model) :
  solve_check_solution C N candidate = Found m ->
  models m (check_solution_session C N candidate).
Proof.
  unfold solve_check_solution.
  destruct (forallb _ _) eqn:Hall; simpl; [|discriminate].
  destruct (Z.eqb_spec (Z.of_nat (List.length candidate)) N) as [Hlen|];
    simpl; [|discriminate].
  destruct (find_triple N candidate) as [[[x y] z]|] eqn:Hf; [|discriminate].
  intros H; inversion H; subst m; clear H.
  apply models_check_solution_session. simpl. split; [|split].
  - apply well_formed_color_of; [lia|].
    apply Forall_forall. intros k Hk. apply in_palette_spec.
    rewrite forallb_forall in Hall. now apply Hall.
  - intros i color. apply color_of_nth_error.
  - now apply find_triple_Some.
Qed.

Lemma solve_check_solution_NoModel (C N : Z) (candidate : list Z) :
  solve_check_solution C N candidate = NoModel ->
  forall m, ~ models m (check_solution_session C N candidate).
Proof.
  unfold solve_check_solution. intros H m Hm.
  apply models_check_solution_session in Hm as [Hwf [Hpin Hmono]].
  destruct (forallb _ _) eqn:Hall; simpl in H.
  - destruct (Z.eqb_spec (Z.of_nat (List.length candidate)) N) as [Hlen|];
      simpl in H; [|discriminate].
    destruct (find_triple N candidate) eqn:Hf; [discriminate|].
    apply find_triple_None in Hf.
    apply (Hf (ints m "a") (ints m "b") (ints m "c")).
    apply (monochromatic_ext N (arrays m "A")); [|exact Hmono].
    apply pinned_to_color_of; [lia|assumption].
  - apply forallb_firstn_false in Hall as [i [color [Hi [Hn Hout]]]].
    apply Hpin in Hn. specialize (Hwf (Z.of_nat i)). rewrite Hn in Hwf.
    assert (Hin : in_palette C color = true) by (apply in_palette_spec; lia).
    congruence.
Qed.

Theorem reference_sat_sound : sat_sound reference.
Proof.
  intros s. simpl. unfold reference_check, reference_model, reference_solve.
  destruct (read_instance s) as [[C N]|]; [|discriminate].
  destruct (session_eqb s (assign_colors_session C N)) eqn:He.
  - apply session_eqb_eq in He.
    destruct (solve_assign_colors C N) as [m| |] eqn:Hs; try discriminate.
    intros _. rewrite He. now apply solve_assign_colors_Found.
  - destruct (session_eqb s (check_solution_session C N (read_candidate s)))
      eqn:He'; [|discriminate].
    apply session_eqb_eq in He'.
    destruct (solve_check_solution C N (read_candidate s)) as [m| |] eqn:Hs;
      try discriminate.
    intros _. rewrite He'. now apply solve_check_solution_Found.
Qed.

Theorem reference_unsat_sound : unsat_sound reference.
Proof.
  intros s. simpl. unfold reference_check, reference_solve.
  destruct (read_instance s) as [[C N]|]; [|discriminate].
  destruct (session_eqb s (assign_colors_session C N)) eqn:He.
  - apply session_eqb_eq in He.
    destruct (solve_assign_colors C N) as [m| |] eqn:Hs; try discriminate.
    intros _. rewrite He. now apply solve_assign_colors_NoModel.
  - destruct (session_eqb s (check_solution_session C N (read_candidate s)))
      eqn:He'; [|discriminate].
    apply session_eqb_eq in He'.
    destruct (solve_check_solution C N (read_candidate s)) as [m| |] eqn:Hs;
      try discriminate.
    intros _. rewrite He'. now apply solve_check_solution_NoModel.
Qed.

(** The reference engine decides every session of [assign_colors]. *)
Lemma reference_decides_assign_colors (C N : Z) :
  check reference (assign_colors_session C N) <> unknown.
Proof.
  change (reference_check (assign_colors_session C N) <> unknown).
  unfold reference_check, reference_solve.
  change (read_instance (assign_colors_session C N)) with (Some (C, N)).
  cbv beta iota.
  assert (He : session_eqb (assign_colors_session C N)
                           (assign_colors_session C N) = true).
  { simpl. now rewrite !Z.eqb_refl. }
  rewrite He. unfold solve_assign_colors.
  destruct (find _ _); discriminate.
Qed.

(** ** Properties of the program over any sound engine *)

Lemma nth_error_range (N i : Z) :
  0 <= i < N -> nth_error (range N) (Z.to_nat i) = Some i.
Proof.
  intros Hi. unfold range. rewrite nth_error_map, nth_error_seq.
  destruct (Nat.ltb_spec (Z.to_nat i) (Z.to_nat N)); [|lia].
  simpl. f_equal. lia.
Qed.

Lemma py_not_true (A : Type) (l : list A) : py_not l = true <-> l = [].
Proof. destruct l; simpl; split; congruence. Qed.

Section Claims.

Variable z3 : Engine.
Hypothesis check_sat_sound : sat_sound z3.
Hypothesis check_unsat_sound : unsat_sound z3.


(** The colouring [assign_colors] reads from the model is the restriction of
    the model's array to 0..N-1. *)
Lemma assign_colors_sat (C N : Z) :
  check z3 (assign_colors_session C N) = sat ->
  assign_colors z3 C N
  = map (arrays (get_model z3 (assign_colors_session C N)) "A") (range N).
Proof.
  intros H. unfold assign_colors. rewrite H. reflexivity.
Qed.

Lemma assign_colors_not_sat (C N : Z) :
  check z3 (assign_colors_session C N) <> sat -> assign_colors z3 C N = [].
Proof.
  intros H. unfold assign_colors.
  destruct (check z3 (assign_colors_session C N)); congruence.
Qed.

Lemma assign_colors_nonempty (C N : Z) :
  assign_colors z3 C N <> [] -> check z3 (assign_colors_session C N) = sat.
Proof.
  intros H. destruct (check z3 (assign_colors_session C N)) eqn:E;
    [reflexivity| |]; exfalso; apply H; apply assign_colors_not_sat; congruence.
Qed.

Lemma check_solution_sat (C N : Z) (candidate : list Z) :
  check z3 (check_solution_session C N candidate) = sat ->
  check_solution z3 C N candidate
  = (false,
     Some (ints (get_model z3 (check_solution_session C N candidate)) "a",
           ints (get_model z3 (check_solution_session C N candidate)) "b",
           ints (get_model z3 (check_solution_session C N candidate)) "c")).
Proof.
  intros H. unfold check_solution. rewrite H. reflexivity.
Qed.

Lemma check_solution_not_sat (C N : Z) (candidate : list Z) :
  check z3 (check_solution_session C N candidate) <> sat ->
  check_solution z3 C N candidate = (true, None).
Proof.
  intros H. unfold check_solution.
  destruct (check z3 (check_solution_session C N candidate)); congruence.
Qed.

(** C1. For C >= 1 and N >= 1, a non-empty list returned by
    [assign_colors C N] has exactly N entries, and its entry at every index
    0..N-1 is a colour in 1..C. *)
Theorem assign_colors_well_formed (C N : Z) :
  1 <= C -> 1 <= N ->
  assign_colors z3 C N <> [] ->
  List.length (assign_colors z3 C N) = Z.to_nat N /\
  forall i, 0 <= i < N ->
    exists color,
      nth_error (assign_colors z3 C N) (Z.to_nat i) = Some color /\
      1 <= color <= C.
Proof.
  intros _ _ Hne. apply assign_colors_nonempty in Hne.
  rewrite (assign_colors_sat _ _ Hne).
  apply check_sat_sound, models_assign_colors_session in Hne as [Hwf _].
  split.
  - now rewrite length_map, length_range.
  - intros i Hi. eexists. split.
    + rewrite nth_error_map, nth_error_range by assumption. reflexivity.
    + now apply Hwf.
Qed.

(** C2. For C >= 1 and N >= 1, when [assign_colors C N] returns a colouring,
    [check_solution] on that colouring returns True and prints no
    counterexample. *)
Theorem check_solution_assign_colors (C N : Z) :
  1 <= C -> 1 <= N ->
  assign_colors z3 C N <> [] ->
  check_solution z3 C N (assign_colors z3 C N) = (true, None).
Proof.
  intros _ _ Hne. apply assign_colors_nonempty in Hne.
  rewrite (assign_colors_sat _ _ Hne).
  apply check_sat_sound, models_assign_colors_session in Hne as [_ Hfree].
  set (A := arrays (get_model z3 (assign_colors_session C N)) "A") in *.
  apply check_solution_not_sat. intros Hsat.
  apply check_sat_sound, models_check_solution_session in Hsat
    as [_ [Hpin Hmono]].
  eapply Hfree, (monochromatic_ext N); [|exact Hmono].
  intros i Hi.
  assert (Hlen : N <= Z.of_nat (List.length (map A (range N))))
    by (rewrite length_map, length_range; lia).
  rewrite (pinned_to_color_of _ _ N Hlen Hpin i Hi).
  now apply color_of_map_range.
Qed.

(** C3. A counterexample [(x, y, z)] reported by [check_solution C N l]
    satisfies x + y = z and 1 <= x, y, z <= N, and the entries of [l] at
    x-1, y-1 and z-1 are the same colour ([l] having an entry for each of
    the N numbers). *)
Theorem check_solution_counterexample (C N : Z) (candidate : list Z)
    (x y z : Z) :
  snd (check_solution z3 C N candidate) = Some (x, y, z) ->
  x + y = z /\
  (1 <= x <= N /\ 1 <= y <= N /\ 1 <= z <= N) /\
  (N <= Z.of_nat (List.length candidate) ->
   exists color,
     nth_error candidate (Z.to_nat (x - 1)) = Some color /\
     nth_error candidate (Z.to_nat (y - 1)) = Some color /\
     nth_error candidate (Z.to_nat (z - 1)) = Some color).
Proof.
  intros H.
  destruct (check z3 (check_solution_session C N candidate)) eqn:E;
    [|rewrite check_solution_not_sat in H by congruence; discriminate..].
  rewrite (check_solution_sat _ _ _ E) in H. simpl in H.
  apply check_sat_sound, models_check_solution_session in E
    as [_ [Hpin Hmono]].
  inversion H; subst; clear H.
  destruct Hmono as [Hd [Hs [H1 H2]]].
  split; [assumption|]. split; [assumption|]. intros Hlen.
  set (A := arrays (get_model z3 (check_solution_session C N candidate)) "A") in *.
  assert (Hat : forall k, 1 <= k <= N ->
            nth_error candidate (Z.to_nat (k - 1)) = Some (A (k - 1))).
  { intros k Hk.
    destruct (nth_error candidate (Z.to_nat (k - 1))) as [color|] eqn:Hn.
    - apply Hpin in Hn. rewrite Z2Nat.id in Hn by lia. now subst.
    - apply nth_error_None in Hn. lia. }
  exists (A (ints (get_model z3 (check_solution_session C N candidate)) "a" - 1)).
  rewrite !Hat by lia. rewrite <- H2, <- H1. auto.
Qed.

(** A valid colouring of 1..N' is one of 1..N for every N <= N'. *)
Lemma satisfiable_fewer_numbers (C N N' : Z) :
  N <= N' ->
  satisfiable (assign_colors_session C N') ->
  satisfiable (assign_colors_session C N).
Proof.
  intros Hle [m Hm]. exists m.
  apply models_assign_colors_session in Hm as [Hwf Hfree].
  apply models_assign_colors_session. split.
  - intros i Hi. apply Hwf. lia.
  - intros x y z [Hd [Hs Hc]]. apply (Hfree x y z).
    unfold monochromatic. repeat split; try tauto; lia.
Qed.

(** C4. For C >= 1 and N >= 1, when [assign_colors C N] returns the empty
    list and no valid colouring of 1..N exists, then for every N' > N no
    valid colouring of 1..N' exists and [assign_colors C N'] returns the
    empty list too. *)
Theorem assign_colors_monotone (C N N' : Z) :
  1 <= C -> 1 <= N -> N < N' ->
  assign_colors z3 C N = [] ->
  ~ satisfiable (assign_colors_session C N) ->
  assign_colors z3 C N' = [] /\ ~ satisfiable (assign_colors_session C N').
Proof.
  intros _ _ Hlt _ Hnone.
  assert (Hnone' : ~ satisfiable (assign_colors_session C N')).
  { intros H. apply Hnone. apply (satisfiable_fewer_numbers C N N'); [lia|exact H]. }
  split; [|exact Hnone'].
  apply assign_colors_not_sat. intros Hsat. apply Hnone'.
  exists (get_model z3 (assign_colors_session C N')). now apply check_sat_sound.
Qed.

(** When the engine answers [unsat] for [(C, N)], [assign_colors] returns
    the empty list for [(C, N)] and for every larger N. *)
Lemma assign_colors_unsat_monotone (C N N' : Z) :
  N <= N' ->
  check z3 (assign_colors_session C N) = unsat ->
  assign_colors z3 C N' = [].
Proof.
  intros Hle Hunsat. apply assign_colors_not_sat. intros Hsat.
  apply check_sat_sound in Hsat.
  destruct (satisfiable_fewer_numbers C N N' Hle) as [m Hm].
  - now exists (get_model z3 (assign_colors_session C N')).
  - exact (check_unsat_sound _ Hunsat m Hm).
Qed.

Lemma iterate_step_eq (C N : Z) :
  iterate_step z3 (C, N) =
  if py_not (assign_colors z3 C N)
  then ([Took C N; SchurNumber C N], (C + 1, N + 1))
  else ([Took C N], (C, N + 1)).
Proof. unfold iterate_step. now destruct (py_not _). Qed.

Lemma iterate_from_succ (n : nat) (st : Z * Z) :
  iterate_from z3 (S n) st =
  let '(out, st') := iterate_from z3 n st in
  let '(out', st'') := iterate_step z3 st' in
  (out ++ out', st'').
Proof.
  revert st; induction n as [|n IH]; intros st.
  - simpl. destruct (iterate_step z3 st) as [out st']. now rewrite app_nil_r.
  - change (iterate_from z3 (S (S n)) st)
      with (let '(out, st') := iterate_step z3 st in
            let '(out', st'') := iterate_from z3 (S n) st' in
            (out ++ out', st'')).
    destruct (iterate_step z3 st) as [out st'] eqn:E. rewrite IH.
    simpl. rewrite E.
    destruct (iterate_from z3 n st') as [out1 st1].
    destruct (iterate_step z3 st1) as [out2 st2].
    now rewrite app_assoc.
Qed.

(** The loop adds one to [total_numbers] in every iteration and never
    lowers [total_colors]. *)
Lemma iterate_from_cursor (n : nat) (C N : Z) :
  snd (snd (iterate_from z3 n (C, N))) = N + Z.of_nat n /\
  C <= fst (snd (iterate_from z3 n (C, N))).
Proof.
  revert C N; induction n as [|n IH]; intros C N.
  - simpl. lia.
  - change (iterate_from z3 (S n) (C, N))
      with (let '(out, st') := iterate_step z3 (C, N) in
            let '(out', st'') := iterate_from z3 n st' in
            (out ++ out', st'')).
    rewrite iterate_step_eq.
    destruct (py_not _).
    + destruct (IH (C + 1) (N + 1)) as [H1 H2].
      destruct (iterate_from z3 n (C + 1, N + 1)) as [out [C' N']].
      simpl in *. lia.
    + destruct (IH C (N + 1)) as [H1 H2].
      destruct (iterate_from z3 n (C, N + 1)) as [out [C' N']].
      simpl in *. lia.
Qed.

(** C5. In every iteration of the loop of [main], from the state [(C, N)]
    the earlier iterations left: when [assign_colors] returns a colouring
    the state becomes [(C, N + 1)]; when it returns the empty list the loop
    prints [S(C) = N] for the current N, and the state becomes
    [(C + 1, N + 1)]: N is not reset, it is one more than the number of
    iterations done. *)
Theorem main_iterate_step (n : nat) (out : list line) (C N : Z) :
  main_iterate z3 n = (out, (C, N)) ->
  N = 1 + Z.of_nat n /\
  (assign_colors z3 C N <> [] ->
   main_iterate z3 (S n) = (out ++ [Took C N], (C, N + 1))) /\
  (assign_colors z3 C N = [] ->
   main_iterate z3 (S n)
   = (out ++ [Took C N; SchurNumber C N], (C + 1, N + 1))).
Proof.
  unfold main_iterate. intros H. split; [|split].
  - destruct (iterate_from_cursor n 1 1) as [H1 _]. rewrite H in H1.
    cbn [snd] in H1. lia.
  - intros Hne. rewrite iterate_from_succ, H. cbv beta iota.
    rewrite iterate_step_eq.
    destruct (assign_colors z3 C N); [congruence|reflexivity].
  - intros He. rewrite iterate_from_succ, H. cbv beta iota.
    rewrite iterate_step_eq, He. reflexivity.
Qed.

(** C6, as the code has it. When [check()] answers [unknown],
    [assign_colors] returns the empty list, the value it also returns on
    [unsat], and the loop of [main] handles it as a failure: it prints
    [S(C) = N] and moves on to [(C + 1, N + 1)]. *)
Theorem unknown_handled_as_unsat (C N : Z) :
  check z3 (assign_colors_session C N) = unknown ->
  assign_colors z3 C N = [] /\
  iterate_step z3 (C, N) = ([Took C N; SchurNumber C N], (C + 1, N + 1)) /\
  (forall C' N', check z3 (assign_colors_session C' N') = unsat ->
                 assign_colors z3 C' N' = []).
Proof.
  intros H.
  assert (He : assign_colors z3 C N = [])
    by (apply assign_colors_not_sat; congruence).
  split; [exact He|]. split.
  - rewrite iterate_step_eq, He. reflexivity.
  - intros C' N' H'. apply assign_colors_not_sat. congruence.
Qed.

(** C7, as the code has it. An instance with C <= 0 or N <= 0 is not
    rejected: [assign_colors] asks the engine as for any other instance and
    returns the empty list, the value it returns when no valid colouring
    exists. *)
Theorem assign_colors_malformed_instance (C N : Z) :
  C <= 0 \/ N <= 0 ->
  assign_colors z3 C N = [].
Proof.
  intros H. destruct (Z.leb_spec N 0) as [HN|HN].
  - unfold assign_colors, range.
    replace (Z.to_nat N) with O by lia.
    now destruct (check z3 _).
  - apply assign_colors_not_sat. intros Hsat.
    apply check_sat_sound, models_assign_colors_session in Hsat as [Hwf _].
    specialize (Hwf 0). lia.
Qed.

(** C8, as the code has it. [check_solution] does not validate the
    candidate and has two outcomes only: True with nothing printed, or
    False with a counterexample. A candidate with an entry outside 1..C at
    an index below N is reported True (valid). *)
Theorem check_solution_malformed_candidate (C N : Z) (candidate : list Z) :
  (check_solution z3 C N candidate = (true, None) \/
   exists x y z, check_solution z3 C N candidate = (false, Some (x, y, z))) /\
  (forall (i : nat) (color : Z),
     Z.of_nat i < N ->
     nth_error candidate i = Some color ->
     ~ 1 <= color <= C ->
     check_solution z3 C N candidate = (true, None)).
Proof.
  split.
  - destruct (check z3 (check_solution_session C N candidate)) eqn:E.
    + right. rewrite (check_solution_sat _ _ _ E). eauto.
    + left. apply check_solution_not_sat. congruence.
    + left. apply check_solution_not_sat. congruence.
  - intros i color Hi Hn Hout. apply check_solution_not_sat. intros Hsat.
    apply check_sat_sound, models_check_solution_session in Hsat
      as [Hwf [Hpin _]].
    apply Hpin in Hn. specialize (Hwf (Z.of_nat i)). rewrite Hn in Hwf. lia.
Qed.

(** C9. The instance (1, 1) has no Schur triple at all, so it is
    satisfiable, and [assign_colors 1 1] returns [[1]] (the engine deciding
    the instance). *)
Theorem assign_colors_1_1 :
  (forall A x y z, ~ monochromatic 1 A x y z) /\
  satisfiable (assign_colors_session 1 1) /\
  (check z3 (assign_colors_session 1 1) <> unknown ->
   assign_colors z3 1 1 = [1]).
Proof.
  assert (Hnone : forall A x y z, ~ monochromatic 1 A x y z)
    by (intros A x y z [Hd [Hs _]]; lia).
  assert (Hsat : satisfiable (assign_colors_session 1 1)).
  { exists (Model (fun _ => 0) (fun _ _ => 1)).
    apply models_assign_colors_session. split.
    - intros i Hi. simpl. lia.
    - intros x y z. apply Hnone. }
  split; [exact Hnone|]. split; [exact Hsat|].
  intros Hdec. destruct (check z3 (assign_colors_session 1 1)) eqn:E.
  - rewrite (assign_colors_sat _ _ E).
    apply check_sat_sound, models_assign_colors_session in E as [Hwf _].
    specialize (Hwf 0). simpl. f_equal. lia.
  - destruct Hsat as [m Hm]. now destruct (check_unsat_sound _ E m).
  - congruence.
Qed.

(** C10. For C >= 1, [assign_colors C 0] returns the empty list although
    the instance is satisfiable; the empty list is also what is returned
    when the engine finds an instance unsatisfiable. *)
Theorem assign_colors_no_numbers (C : Z) :
  1 <= C ->
  assign_colors z3 C 0 = [] /\
  satisfiable (assign_colors_session C 0) /\
  (forall N, check z3 (assign_colors_session C N) = unsat ->
             assign_colors z3 C N = []).
Proof.
  intros _. split; [|split].
  - unfold assign_colors. simpl. now destruct (check z3 _).
  - exists (Model (fun _ => 0) (fun _ _ => 0)).
    apply models_assign_colors_session. split.
    + intros i Hi. lia.
    + intros x y z [Hd _]. lia.
  - intros N H. apply assign_colors_not_sat. congruence.
Qed.

End Claims.

(** ** The program on the reference engine *)

Example reference_assign_colors_2_4 : assign_colors reference 2 4 = [1; 2; 2; 1].
Proof. vm_compute. reflexivity. Qed.

Example reference_assign_colors_2_5 :
  check reference (assign_colors_session 2 5) = unsat.
Proof. vm_compute. reflexivity. Qed.

Example reference_check_solution_valid :
  check_solution reference 2 4 [1; 2; 2; 1] = (true, None).
Proof. vm_compute. reflexivity. Qed.

Example reference_check_solution_invalid :
  check_solution reference 2 4 [1; 2; 1; 1] = (false, Some (1, 3, 4)).
Proof. vm_compute. reflexivity. Qed.

Example reference_main_iterate :
  main_iterate reference 6
  = ([Took 1 1; Took 1 2; SchurNumber 1 2; Took 2 3; Took 2 4; Took 2 5;
      SchurNumber 2 5; Took 3 6], (3, 7)).
Proof. vm_compute. reflexivity. Qed.

Lemma undecided_sat_sound : sat_sound undecided.
Proof. intros s H. discriminate. Qed.

Lemma undecided_unsat_sound : unsat_sound undecided.
Proof. intros s H. discriminate. Qed.

Lemma assign_colors_well_formed_witness :
  List.length (assign_colors reference 2 4) = Z.to_nat 4 /\
  forall i, 0 <= i < 4 ->
    exists color,
      nth_error (assign_colors reference 2 4) (Z.to_nat i) = Some color /\
      1 <= color <= 2.
Proof.
  apply (assign_colors_well_formed reference reference_sat_sound 2 4);
    [lia|lia|vm_compute; discriminate].
Defined.

Lemma check_solution_assign_colors_witness :
  check_solution reference 2 4 (assign_colors reference 2 4) = (true, None).
Proof.
  apply (check_solution_assign_colors reference reference_sat_sound 2 4);
    [lia|lia|vm_compute; discriminate].
Defined.

Lemma check_solution_counterexample_witness :
  snd (check_solution reference 2 4 [1; 2; 1; 1]) = Some (1, 3, 4) /\
  1 + 3 = 4 /\
  (1 <= 1 <= 4 /\ 1 <= 3 <= 4 /\ 1 <= 4 <= 4) /\
  exists color,
    nth_error [1; 2; 1; 1] (Z.to_nat (1 - 1)) = Some color /\
    nth_error [1; 2; 1; 1] (Z.to_nat (3 - 1)) = Some color /\
    nth_error [1; 2; 1; 1] (Z.to_nat (4 - 1)) = Some color.
Proof.
  assert (H : snd (check_solution reference 2 4 [1; 2; 1; 1]) = Some (1, 3, 4))
    by (vm_compute; reflexivity).
  split; [exact H|].
  destruct (check_solution_counterexample reference reference_sat_sound
              2 4 [1; 2; 1; 1] 1 3 4 H) as [Hsum [Hbounds Hcolors]].
  split; [exact Hsum|]. split; [exact Hbounds|].
  apply Hcolors. simpl. lia.
Defined.

Lemma assign_colors_monotone_witness :
  assign_colors reference 1 3 = [] /\
  ~ satisfiable (assign_colors_session 1 3).
Proof.
  apply (assign_colors_monotone reference reference_sat_sound 1 2 3);
    [lia|lia|lia|vm_compute; reflexivity|].
  intros [m Hm].
  assert (Hunsat : check reference (assign_colors_session 1 2) = unsat)
    by (vm_compute; reflexivity).
  exact (reference_unsat_sound _ Hunsat m Hm).
Defined.

Lemma main_iterate_step_witness :
  main_iterate reference 1 = ([Took 1 1], (1, 2)) /\
  main_iterate reference 2
  = ([Took 1 1; Took 1 2; SchurNumber 1 2], (2, 3)).
Proof.
  split.
  - apply (proj1 (proj2 (main_iterate_step reference 0 [] 1 1 eq_refl))).
    vm_compute. discriminate.
  - assert (H : main_iterate reference 1 = ([Took 1 1], (1, 2)))
      by (vm_compute; reflexivity).
    apply (proj2 (proj2 (main_iterate_step reference 1 [Took 1 1] 1 2 H))).
    vm_compute. reflexivity.
Defined.

(** C6 fails on the code: on an engine that answers [unknown] for the
    instance (1, 1), [assign_colors] returns the empty list, and the loop
    prints [S(1) = 1] and advances to (2, 2). *)
Lemma unknown_is_not_distinct :
  check undecided (assign_colors_session 1 1) = unknown /\
  assign_colors undecided 1 1 = [] /\
  iterate_step undecided (1, 1) = ([Took 1 1; SchurNumber 1 1], (2, 2)).
Proof. vm_compute. repeat split; reflexivity. Qed.

Lemma unknown_handled_as_unsat_witness :
  assign_colors undecided 1 1 = [] /\
  iterate_step undecided (1, 1)
  = ([Took 1 1; SchurNumber 1 1], (1 + 1, 1 + 1)) /\
  (forall C' N', check undecided (assign_colors_session C' N') = unsat ->
                 assign_colors undecided C' N' = []).
Proof.
  apply (unknown_handled_as_unsat undecided 1 1). reflexivity.
Defined.

(** C7 fails on the code: for the instance (0, 1) the engine is asked (it
    answers [unsat]) and the outcome is the empty list, the same as for the
    instance (1, 2), which is well formed and has no valid colouring. *)
Lemma malformed_instance_is_not_rejected :
  check reference (assign_colors_session 0 1) = unsat /\
  assign_colors reference 0 1 = [] /\
  check reference (assign_colors_session 1 2) = unsat /\
  assign_colors reference 1 2 = assign_colors reference 0 1.
Proof. vm_compute. repeat split; reflexivity. Qed.

Lemma assign_colors_malformed_instance_witness :
  assign_colors reference 0 1 = [].
Proof.
  apply (assign_colors_malformed_instance reference reference_sat_sound 0 1).
  left. lia.
Defined.

(** C8 fails on the code: the candidates [[5; 5]] and [[5]] for the
    instance (2, 2) hold a value outside 1..2 (and the second has the wrong
    length), and [check_solution] reports both valid. *)
Lemma malformed_candidate_is_reported_valid :
  check_solution reference 2 2 [5; 5] = (true, None) /\
  check_solution reference 2 2 [5] = (true, None).
Proof. vm_compute. split; reflexivity. Qed.

Lemma check_solution_malformed_candidate_witness :
  check_solution reference 2 2 [5; 5] = (true, None).
Proof.
  apply (proj2 (check_solution_malformed_candidate
                  reference reference_sat_sound 2 2 [5; 5]) 0%nat 5);
    [lia|reflexivity|lia].
Defined.

Lemma assign_colors_1_1_witness : assign_colors reference 1 1 = [1].
Proof.
  apply (assign_colors_1_1 reference reference_sat_sound reference_unsat_sound).
  vm_compute. discriminate.
Defined.

Lemma assign_colors_no_numbers_witness :
  assign_colors reference 2 0 = [] /\
  satisfiable (assign_colors_session 2 0) /\
  (forall N, check reference (assign_colors_session 2 N) = unsat ->
             assign_colors reference 2 N = []).
Proof. apply (assign_colors_no_numbers reference 2). lia. Defined.

(** ** Further properties of [assign_colors] *)

Lemma valid_coloring_satisfiable (C N : Z) (l : list Z) :
  valid_coloring C N l -> satisfiable (assign_colors_session C N).
Proof.
  intros [Hlen [Hall Hfree]]. exists (model_of l (0, 0, 0)).
  apply models_assign_colors_session. simpl. split; [|exact Hfree].
  apply well_formed_color_of; [lia|].
  rewrite firstn_all2 by lia. exact Hall.
Qed.

Lemma models_valid_coloring (C N : Z) (m : model) :
  0 <= N ->
  models m (assign_colors_session C N) ->
  valid_coloring C N (map (arrays m "A") (range N)).
Proof.
  intros HN Hm. apply models_assign_colors_session in Hm as [Hwf Hfree].
  split; [|split].
  - rewrite length_map, length_range. lia.
  - apply Forall_forall. intros k Hk.
    apply in_map_iff in Hk as [i [<- Hi]]. apply In_range in Hi. now apply Hwf.
  - intros x y z Hmono. apply (Hfree x y z).
    apply (monochromatic_ext N (color_of (map (arrays m "A") (range N))));
      [|exact Hmono].
    intros i Hi. now apply color_of_map_range.
Qed.

Lemma satisfiable_more_colors (C C' N : Z) :
  C <= C' ->
  satisfiable (assign_colors_session C N) ->
  satisfiable (assign_colors_session C' N).
Proof.
  intros Hle [m Hm]. exists m.
  apply models_assign_colors_session in Hm as [Hwf Hfree].
  apply models_assign_colors_session. split; [|exact Hfree].
  intros i Hi. specialize (Hwf i Hi). lia.
Qed.

(** Giving every number its own colour leaves no monochromatic triple. *)
Lemma satisfiable_enough_colors (C N : Z) :
  N <= C -> satisfiable (assign_colors_session C N).
Proof.
  intros Hle. exists (Model (fun _ => 0) (fun _ i => i + 1)).
  apply models_assign_colors_session. simpl. split.
  - intros i Hi. lia.
  - intros x y z [Hd [Hs [H1 H2]]]. lia.
Qed.

Section AssignColors.

Variable z3 : Engine.
Hypothesis check_sat_sound : sat_sound z3.
Hypothesis check_unsat_sound : unsat_sound z3.

Lemma assign_colors_decided_satisfiable (C N : Z) :
  satisfiable (assign_colors_session C N) ->
  check z3 (assign_colors_session C N) <> unknown ->
  check z3 (assign_colors_session C N) = sat.
Proof.
  intros [m Hm] Hdec.
  destruct (check z3 (assign_colors_session C N)) eqn:E;
    [reflexivity| |congruence].
  now destruct (check_unsat_sound _ E m).
Qed.

Lemma assign_colors_unsatisfiable (C N : Z) :
  ~ satisfiable (assign_colors_session C N) -> assign_colors z3 C N = [].
Proof.
  intros Hnone. apply assign_colors_not_sat. intros Hsat. apply Hnone.
  exists (get_model z3 (assign_colors_session C N)). now apply check_sat_sound.
Qed.

Lemma assign_colors_sat_nonempty (C N : Z) :
  1 <= N ->
  check z3 (assign_colors_session C N) = sat ->
  assign_colors z3 C N <> [].
Proof.
  intros HN Hsat He. apply (f_equal (@List.length Z)) in He.
  rewrite (assign_colors_sat _ _ _ Hsat), length_map, length_range in He.
  simpl in He. lia.
Qed.

Lemma assign_colors_nonpositive (C N : Z) :
  N <= 0 -> assign_colors z3 C N = [].
Proof.
  intros HN. unfold assign_colors, range.
  replace (Z.to_nat N) with O by lia.
  now destruct (check z3 _).
Qed.

(** X1. A non-empty list returned by [assign_colors C N] is a valid
    colouring: N entries, each a colour of 1..C, and no x, y with
    x + y <= N whose entries at x-1, y-1 and x+y-1 are all equal. *)
Theorem assign_colors_valid (C N : Z) :
  assign_colors z3 C N <> [] ->
  valid_coloring C N (assign_colors z3 C N).
Proof.
  intros Hne.
  assert (HN : 0 <= N).
  { destruct (Z.leb_spec 0 N) as [H|H]; [exact H|].
    exfalso. apply Hne, assign_colors_nonpositive. lia. }
  apply assign_colors_nonempty in Hne.
  rewrite (assign_colors_sat _ _ _ Hne).
  apply models_valid_coloring; [exact HN|now apply check_sat_sound].
Qed.

(** X2. For N >= 1 and an engine that decides the instance,
    [assign_colors C N] returns a non-empty list exactly when a valid
    colouring of 1..N with C colours exists. *)
Theorem assign_colors_nonempty_iff (C N : Z) :
  1 <= N ->
  check z3 (assign_colors_session C N) <> unknown ->
  (assign_colors z3 C N <> [] <-> exists l, valid_coloring C N l).
Proof.
  intros HN Hdec. split.
  - intros Hne. exists (assign_colors z3 C N).
    assert (H0 : 0 <= N) by lia.
    apply assign_colors_nonempty in Hne.
    rewrite (assign_colors_sat _ _ _ Hne).
    apply models_valid_coloring; [exact H0|now apply check_sat_sound].
  - intros [l Hl]. apply assign_colors_sat_nonempty; [exact HN|].
    apply assign_colors_decided_satisfiable; [|exact Hdec].
    now apply (valid_coloring_satisfiable C N l).
Qed.

(** X3. When the engine answers [unsat] for [(C, N)], [assign_colors]
    returns the empty list for every instance with no more colours and no
    fewer numbers. *)
Theorem assign_colors_unsat_upward (C N C' N' : Z) :
  C' <= C -> N <= N' ->
  check z3 (assign_colors_session C N) = unsat ->
  assign_colors z3 C' N' = [].
Proof.
  intros HC HN Hunsat. apply assign_colors_unsatisfiable. intros Hsat.
  apply (satisfiable_more_colors C' C N') in Hsat; [|exact HC].
  apply (satisfiable_fewer_numbers C N N') in Hsat; [|exact HN].
  destruct Hsat as [m Hm]. exact (check_unsat_sound _ Hunsat m Hm).
Qed.

(** X4. With at least as many colours as numbers the instance has a valid
    colouring: the engine never answers [unsat], and when it decides the
    instance [assign_colors] returns a list of N colours. *)
Theorem assign_colors_enough_colors (C N : Z) :
  N <= C ->
  check z3 (assign_colors_session C N) <> unsat /\
  (check z3 (assign_colors_session C N) <> unknown ->
   List.length (assign_colors z3 C N) = Z.to_nat N).
Proof.
  intros Hle. pose proof (satisfiable_enough_colors C N Hle) as Hsat. split.
  - intros Hunsat. destruct Hsat as [m Hm].
    exact (check_unsat_sound _ Hunsat m Hm).
  - intros Hdec.
    rewrite (assign_colors_sat z3 C N)
      by (now apply assign_colors_decided_satisfiable).
    now rewrite length_map, length_range.
Qed.

End AssignColors.

(** ** Further properties of [check_solution] *)

Lemma covers_spec (C N : Z) (candidate : list Z) :
  covers C N candidate = true ->
  N <= Z.of_nat (List.length candidate) /\ well_formed C N (color_of candidate).
Proof.
  unfold covers. intros H. apply andb_prop in H as [Hlen Hall].
  apply Z.leb_le in Hlen. split; [exact Hlen|].
  apply well_formed_color_of; [exact Hlen|].
  apply Forall_forall. intros k Hk. apply in_palette_spec.
  rewrite forallb_forall in Hall. now apply Hall.
Qed.

Lemma models_candidate (C N : Z) (candidate : list Z) (x y z : Z) :
  covers C N candidate = true ->
  monochromatic N (color_of candidate) x y z ->
  models (model_of candidate (x, y, z)) (check_solution_session C N candidate).
Proof.
  intros Hc Hmono. apply covers_spec in Hc as [_ Hwf].
  apply models_check_solution_session. simpl. split; [exact Hwf|]. split.
  - intros i color. apply color_of_nth_error.
  - exact Hmono.
Qed.

Lemma models_monochromatic_candidate (C N : Z) (candidate : list Z) (m : model) :
  N <= Z.of_nat (List.length candidate) ->
  models m (check_solution_session C N candidate) ->
  monochromatic N (color_of candidate) (ints m "a") (ints m "b") (ints m "c").
Proof.
  intros Hlen Hm.
  apply models_check_solution_session in Hm as [_ [Hpin Hmono]].
  apply (monochromatic_ext N (arrays m "A")); [|exact Hmono].
  now apply pinned_to_color_of.
Qed.

Lemma triple_freeb_spec (N : Z) (l : list Z) :
  triple_freeb N l = true <-> triple_free N (color_of l).
Proof.
  split; [apply triple_freeb_true|].
  intros Hfree. destruct (triple_freeb N l) eqn:E; [reflexivity|].
  apply triple_freeb_false in E as [x [y [z Hmono]]].
  now destruct (Hfree x y z).
Qed.

Section CheckSolution.

Variable z3 : Engine.
Hypothesis check_sat_sound : sat_sound z3.
Hypothesis check_unsat_sound : unsat_sound z3.

(** X5. A candidate with an entry for each of the N numbers and no
    monochromatic Schur triple among them is reported valid, with no
    counterexample. *)
Theorem check_solution_triple_free (C N : Z) (candidate : list Z) :
  N <= Z.of_nat (List.length candidate) ->
  triple_free N (color_of candidate) ->
  check_solution z3 C N candidate = (true, None).
Proof.
  intros Hlen Hfree. apply check_solution_not_sat. intros Hsat.
  apply check_sat_sound in Hsat.
  apply (models_monochromatic_candidate C N candidate) in Hsat; [|exact Hlen].
  exact (Hfree _ _ _ Hsat).
Qed.

(** X6. On a candidate whose first N entries are colours of 1..C, and with
    an engine that decides the session, the flag returned by
    [check_solution] is the answer of the direct search for a monochromatic
    triple in the candidate: True exactly when there is none. *)
Theorem check_solution_decides (C N : Z) (candidate : list Z) :
  covers C N candidate = true ->
  check z3 (check_solution_session C N candidate) <> unknown ->
  fst (check_solution z3 C N candidate) = triple_freeb N candidate.
Proof.
  intros Hc Hdec. destruct (triple_freeb N candidate) eqn:E.
  - apply triple_freeb_true in E. apply covers_spec in Hc as [Hlen _].
    rewrite check_solution_not_sat; [reflexivity|]. intros Hsat.
    apply check_sat_sound in Hsat.
    apply (models_monochromatic_candidate C N candidate) in Hsat;
      [|exact Hlen].
    exact (E _ _ _ Hsat).
  - apply triple_freeb_false in E as [x [y [z Hmono]]].
    pose proof (models_candidate C N candidate x y z Hc Hmono) as Hm.
    destruct (check z3 (check_solution_session C N candidate)) eqn:Hr.
    + now rewrite (check_solution_sat _ _ _ _ Hr).
    + now destruct (check_unsat_sound _ Hr _ Hm).
    + congruence.
Qed.

(** X7. With fewer than two numbers, or with no colour at all,
    [check_solution] reports every candidate valid, whatever its length and
    entries. *)
Theorem check_solution_degenerate (C N : Z) (candidate : list Z) :
  N <= 1 \/ C <= 0 ->
  check_solution z3 C N candidate = (true, None).
Proof.
  intros H. apply check_solution_not_sat. intros Hsat.
  apply check_sat_sound, models_check_solution_session in Hsat
    as [Hwf [_ [Hd [Hs _]]]].
  destruct H as [H|H]; [lia|].
  specialize (Hwf 0). lia.
Qed.

(** X8. Entries of the candidate past the N-th are neither checked nor
    used: appending any entries to a candidate of at least N entries
    leaves the flag unchanged (the engine deciding both sessions). *)
Theorem check_solution_surplus (C N : Z) (candidate surplus : list Z) :
  N <= Z.of_nat (List.length candidate) ->
  check z3 (check_solution_session C N candidate) <> unknown ->
  check z3 (check_solution_session C N (candidate ++ surplus)) <> unknown ->
  fst (check_solution z3 C N (candidate ++ surplus))
  = fst (check_solution z3 C N candidate).
Proof.
  intros Hlen Hdec Hdec'.
  destruct (check z3 (check_solution_session C N candidate)) eqn:E;
    destruct (check z3 (check_solution_session C N (candidate ++ surplus)))
      eqn:E'; try congruence.
  - now rewrite (check_solution_sat _ _ _ _ E), (check_solution_sat _ _ _ _ E').
  - exfalso. apply check_sat_sound, models_check_solution_session in E
      as [Hwf [Hpin Hmono]].
    set (m := get_model z3 (check_solution_session C N candidate)) in *.
    set (A' := fun i => if i <? Z.of_nat (List.length candidate)
                        then arrays m "A" i
                        else color_of (candidate ++ surplus) i).
    apply (check_unsat_sound _ E' (Model (ints m) (fun _ => A'))).
    apply models_check_solution_session. simpl. split; [|split].
    + intros i Hi. unfold A'.
      destruct (Z.ltb_spec i (Z.of_nat (List.length candidate))); [|lia].
      now apply Hwf.
    + intros i color Hn. unfold A'.
      destruct (Z.ltb_spec (Z.of_nat i) (Z.of_nat (List.length candidate))).
      * apply Hpin. rewrite nth_error_app1 in Hn by lia. exact Hn.
      * now apply color_of_nth_error.
    + apply (monochromatic_ext N (arrays m "A")); [|exact Hmono].
      intros i Hi. unfold A'.
      destruct (Z.ltb_spec i (Z.of_nat (List.length candidate))); [reflexivity|lia].
  - exfalso. apply check_sat_sound, models_check_solution_session in E'
      as [Hwf [Hpin Hmono]].
    apply (check_unsat_sound _ E
             (get_model z3 (check_solution_session C N (candidate ++ surplus)))).
    apply models_check_solution_session. split; [exact Hwf|].
    split; [|exact Hmono].
    intros i color Hn. apply Hpin. rewrite nth_error_app1; [exact Hn|].
    apply nth_error_Some. congruence.
  - rewrite !check_solution_not_sat by congruence. reflexivity.
Qed.

End CheckSolution.

(** ** Further properties of the loop of [main] *)

Lemma queries_app (out out' : list line) :
  queries (out ++ out') = queries out ++ queries out'.
Proof. apply flat_map_app. Qed.

Lemma schur_numbers_app (out out' : list line) :
  schur_numbers (out ++ out') = schur_numbers out ++ schur_numbers out'.
Proof. apply flat_map_app. Qed.

Lemma count_from_succ (first : Z) (n : nat) :
  count_from first (S n) = count_from first n ++ [first + Z.of_nat n].
Proof. unfold count_from. now rewrite seq_S, map_app. Qed.

Section Driver.

Variable z3 : Engine.

(** What [n] iterations from [(C0, N0)] leave behind. *)
Lemma iterate_from_invariant (n : nat) (C0 N0 : Z) :
  forall out C N,
    iterate_from z3 n (C0, N0) = (out, (C, N)) ->
    N = N0 + Z.of_nat n /\
    C = C0 + Z.of_nat (List.length (schur_numbers out)) /\
    C - C0 <= Z.of_nat n /\
    map snd (queries out) = count_from N0 n /\
    Forall (fun q => C0 <= fst q /\ fst q - C0 <= snd q - N0) (queries out) /\
    map fst (schur_numbers out)
    = count_from C0 (List.length (schur_numbers out)) /\
    schur_numbers out = filter (failed z3) (queries out).
Proof.
  induction n as [|n IH]; intros out C N H.
  - simpl in H. inversion H; subst. simpl.
    repeat split; try lia; constructor.
  - rewrite iterate_from_succ in H.
    destruct (iterate_from z3 n (C0, N0)) as [out1 [C1 N1]] eqn:E.
    destruct (IH out1 C1 N1 eq_refl) as [HN [HC [Hle [Hq [Hall [Hs Hf]]]]]].
    rewrite iterate_step_eq in H.
    assert (Hfailed : failed z3 (C1, N1) = py_not (assign_colors z3 C1 N1))
      by reflexivity.
    rewrite count_from_succ.
    destruct (py_not (assign_colors z3 C1 N1)) eqn:Ep;
      inversion H; subst out C N; clear H;
      rewrite queries_app, schur_numbers_app; simpl;
      rewrite map_app, filter_app, Forall_app; simpl; rewrite Hfailed.
    + rewrite length_app, map_app. simpl.
      rewrite Nat.add_1_r, count_from_succ, <- Hs, <- Hf, Hq.
      split; [lia|]. split; [lia|]. split; [lia|]. split; [now subst|].
      split; [split; [exact Hall|constructor; [simpl; lia|constructor]]|].
      split; [|reflexivity].
      f_equal. f_equal. lia.
    + rewrite !app_nil_r, <- Hf, Hq.
      split; [lia|]. split; [lia|]. split; [lia|]. split; [now subst|].
      split; [split; [exact Hall|constructor; [simpl; lia|constructor]]|].
      split; [exact Hs|reflexivity].
Qed.

(** X9. After n iterations the loop has asked for N = 1, 2, ..., n, each
    once and in this order, every time with at least one colour and no more
    colours than numbers, and its cursor has 1 <= C <= N. *)
Theorem main_iterate_queries (n : nat) (out : list line) (C N : Z) :
  main_iterate z3 n = (out, (C, N)) ->
  map snd (queries out) = count_from 1 n /\
  Forall (fun q => 1 <= fst q <= snd q) (queries out) /\
  1 <= C <= N.
Proof.
  intros H. apply iterate_from_invariant in H
    as [HN [HC [Hle [Hq [Hall _]]]]].
  split; [exact Hq|]. split; [|lia].
  eapply Forall_impl; [|exact Hall]. simpl. intros q Hq'. lia.
Qed.

(** X10. The [S(C) = N] lines are printed for C = 1, 2, 3, ... in this
    order, one line per colour count, and the cursor's C is one more than
    the number of such lines printed so far. *)
Theorem main_iterate_schur_numbers (n : nat) (out : list line) (C N : Z) :
  main_iterate z3 n = (out, (C, N)) ->
  map fst (schur_numbers out) = count_from 1 (List.length (schur_numbers out)) /\
  C = 1 + Z.of_nat (List.length (schur_numbers out)).
Proof.
  intros H. apply iterate_from_invariant in H
    as [_ [HC [_ [_ [_ [Hs _]]]]]].
  split; assumption.
Qed.

(** X11. The [S(C) = N] lines are exactly the instances of the progress
    lines for which [assign_colors] returned the empty list, in the order
    they were asked. *)
Theorem main_iterate_failures (n : nat) (out : list line) (C N : Z) :
  main_iterate z3 n = (out, (C, N)) ->
  schur_numbers out = filter (failed z3) (queries out).
Proof.
  intros H. now apply iterate_from_invariant in H.
Qed.

End Driver.

Lemma valid_coloring_2_4 : valid_coloring 2 4 [1; 2; 2; 1].
Proof.
  split; [reflexivity|]. split.
  - repeat constructor; lia.
  - apply triple_freeb_true. vm_compute. reflexivity.
Qed.

Lemma unsatisfiable_1_2 : ~ satisfiable (assign_colors_session 1 2).
Proof.
  intros [m Hm].
  assert (H : check reference (assign_colors_session 1 2) = unsat)
    by (vm_compute; reflexivity).
  exact (reference_unsat_sound _ H m Hm).
Qed.

Lemma unsatisfiable_2_5 : ~ satisfiable (assign_colors_session 2 5).
Proof.
  intros [m Hm].
  assert (H : check reference (assign_colors_session 2 5) = unsat)
    by (vm_compute; reflexivity).
  exact (reference_unsat_sound _ H m Hm).
Qed.

(** X12. On every sound engine that decides the instances (1, 1), (2, 3)
    and (2, 4), the first five iterations of the loop print [S(1) = 2] and
    [S(2) = 5], the first N for which no colouring exists, and leave the
    cursor at (3, 6). *)
Theorem main_iterate_first_five (z3 : Engine) :
  sat_sound z3 -> unsat_sound z3 ->
  check z3 (assign_colors_session 1 1) <> unknown ->
  check z3 (assign_colors_session 2 3) <> unknown ->
  check z3 (assign_colors_session 2 4) <> unknown ->
  main_iterate z3 5
  = ([Took 1 1; Took 1 2; SchurNumber 1 2;
      Took 2 3; Took 2 4; Took 2 5; SchurNumber 2 5], (3, 6)).
Proof.
  intros Hsat Hunsat H11 H23 H24.
  assert (Hyes : forall C N, 1 <= N ->
            satisfiable (assign_colors_session C N) ->
            check z3 (assign_colors_session C N) <> unknown ->
            py_not (assign_colors z3 C N) = false).
  { intros C N HN Hs Hdec.
    destruct (assign_colors z3 C N) eqn:E; [|reflexivity].
    exfalso. revert E. apply assign_colors_sat_nonempty; [exact HN|].
    now apply assign_colors_decided_satisfiable. }
  assert (Hno : forall C N,
            ~ satisfiable (assign_colors_session C N) ->
            py_not (assign_colors z3 C N) = true).
  { intros C N Hn. now rewrite assign_colors_unsatisfiable. }
  pose proof (valid_coloring_satisfiable 2 4 _ valid_coloring_2_4) as S24.
  assert (S23 : satisfiable (assign_colors_session 2 3))
    by (apply (satisfiable_fewer_numbers 2 3 4); [lia|exact S24]).
  assert (S11 : satisfiable (assign_colors_session 1 1))
    by (apply satisfiable_enough_colors; lia).
  unfold main_iterate. cbn [iterate_from].
  rewrite iterate_step_eq, (Hyes 1 1) by (lia || assumption).
  cbn [Z.add Pos.add Pos.succ].
  rewrite iterate_step_eq, (Hno 1 2 unsatisfiable_1_2).
  cbn [Z.add Pos.add Pos.succ].
  rewrite iterate_step_eq, (Hyes 2 3) by (lia || assumption).
  cbn [Z.add Pos.add Pos.succ].
  rewrite iterate_step_eq, (Hyes 2 4) by (lia || assumption).
  cbn [Z.add Pos.add Pos.succ].
  rewrite iterate_step_eq, (Hno 2 5 unsatisfiable_2_5).
  reflexivity.
Qed.

(** ** Further properties of the encoding and of the two queries together *)

Lemma satisfiable_valid_coloring (C N : Z) :
  0 <= N ->
  satisfiable (assign_colors_session C N) <-> exists l, valid_coloring C N l.
Proof.
  intros HN. split.
  - intros [m Hm]. eexists. now apply (models_valid_coloring C N m).
  - intros [l Hl]. now apply (valid_coloring_satisfiable C N l).
Qed.

(** X13. The session of [assign_colors] constrains the array at the
    indices 0..N-1 only, and no integer constant: a model stays a model
    when the array is changed anywhere else and the constants are given any
    other values. *)
Theorem assign_colors_session_outside (C N : Z) (m : model)
    (A' : Z -> Z) (ints' : string -> Z) :
  models m (assign_colors_session C N) ->
  (forall i, 0 <= i < N -> arrays m "A" i = A' i) ->
  models (Model ints' (fun _ => A')) (assign_colors_session C N).
Proof.
  intros Hm Hagree.
  apply models_assign_colors_session in Hm as [Hwf Hfree].
  apply models_assign_colors_session. simpl. split.
  - intros i Hi. rewrite <- Hagree by exact Hi. now apply Hwf.
  - intros x y z Hmono. apply (Hfree x y z).
    apply (monochromatic_ext N A'); [|exact Hmono].
    intros i Hi. symmetry. now apply Hagree.
Qed.

Section Together.

Variable z3 : Engine.
Hypothesis check_sat_sound : sat_sound z3.
Hypothesis check_unsat_sound : unsat_sound z3.

(** X14. On the empty candidate, with at least one colour and two
    numbers, nothing is pinned and the engine is free to colour 1 and 2
    alike: [check_solution] returns False with a counterexample whenever
    the engine decides the session. *)
Theorem check_solution_empty_candidate (C N : Z) :
  1 <= C -> 2 <= N ->
  check z3 (check_solution_session C N []) <> unknown ->
  exists x y z, check_solution z3 C N [] = (false, Some (x, y, z)).
Proof.
  intros HC HN Hdec.
  assert (Hm : models (Model (fun name => if String.eqb name "c" then 2 else 1)
                             (fun _ _ => 1))
                      (check_solution_session C N [])).
  { apply models_check_solution_session. simpl. split; [|split].
    - intros i Hi. lia.
    - intros [|i] color H; discriminate.
    - unfold monochromatic. lia. }
  destruct (check z3 (check_solution_session C N [])) eqn:E.
  - rewrite (check_solution_sat _ _ _ _ E). eauto.
  - now destruct (check_unsat_sound _ E _ Hm).
  - congruence.
Qed.

(** X15. When [check_solution] reports valid a candidate whose first N
    entries are colours of 1..C, the engine deciding that session, then a
    valid colouring of the instance exists and the engine cannot answer
    [unsat] to [assign_colors] on it. *)
Theorem check_solution_valid_assign_colors (C N : Z) (candidate : list Z) :
  covers C N candidate = true ->
  check z3 (check_solution_session C N candidate) <> unknown ->
  fst (check_solution z3 C N candidate) = true ->
  satisfiable (assign_colors_session C N) /\
  check z3 (assign_colors_session C N) <> unsat.
Proof.
  intros Hc Hdec Hvalid.
  assert (Hfree : triple_free N (color_of candidate)).
  { apply triple_freeb_spec. destruct (triple_freeb N candidate) eqn:E;
      [reflexivity|exfalso].
    apply triple_freeb_false in E as [x [y [z Hmono]]].
    pose proof (models_candidate C N candidate x y z Hc Hmono) as Hm.
    destruct (check z3 (check_solution_session C N candidate)) eqn:Hr.
    - rewrite (check_solution_sat _ _ _ _ Hr) in Hvalid. discriminate.
    - now destruct (check_unsat_sound _ Hr _ Hm).
    - congruence. }
  assert (Hm : models (model_of candidate (0, 0, 0)) (assign_colors_session C N)).
  { apply models_assign_colors_session. simpl. split; [|exact Hfree].
    now apply covers_spec in Hc as [_ Hwf]. }
  split; [now exists (model_of candidate (0, 0, 0))|].
  intros Hunsat. exact (check_unsat_sound _ Hunsat _ Hm).
Qed.

(** X16. Among the instances the loop asked and the engine decided, the
    [S(C) = N] lines are exactly those that have no valid colouring. *)
Theorem main_iterate_schur_numbers_sound (n : nat) (out : list line)
    (C N c k : Z) :
  main_iterate z3 n = (out, (C, N)) ->
  In (c, k) (queries out) ->
  check z3 (assign_colors_session c k) <> unknown ->
  (In (c, k) (schur_numbers out) <-> ~ exists l, valid_coloring c k l).
Proof.
  intros H Hin Hdec.
  pose proof (iterate_from_invariant z3 n 1 1 out C N H)
    as [_ [_ [_ [_ [Hall [_ Hf]]]]]].
  rewrite Forall_forall in Hall. specialize (Hall _ Hin). simpl in Hall.
  assert (Hk : 1 <= k) by lia.
  rewrite Hf, filter_In. unfold failed. simpl. rewrite py_not_true.
  rewrite <- (satisfiable_valid_coloring c k) by lia.
  split.
  - intros [_ He] Hs.
    apply (assign_colors_sat_nonempty z3 c k Hk); [|exact He].
    now apply assign_colors_decided_satisfiable.
  - intros Hnone. split; [exact Hin|].
    now apply assign_colors_unsatisfiable.
Qed.

End Together.

(** ** The further properties on concrete engines *)

Lemma tabled_sat_sound : sat_sound tabled.
Proof.
  intros s. cbn [check tabled].
  destruct (existsb (session_eqb s) known_unsat); discriminate.
Qed.

Lemma tabled_unsat_sound : unsat_sound tabled.
Proof.
  intros s. cbn [check tabled].
  destruct (existsb (session_eqb s) known_unsat) eqn:E; [|discriminate].
  intros _ m Hm. apply existsb_exists in E as [s' [Hin He]].
  apply session_eqb_eq in He. subst s'.
  destruct Hin as [<-|[<-|[]]];
    apply models_monochromatic_candidate in Hm; try (simpl; lia);
    revert Hm; apply triple_freeb_true; vm_compute; reflexivity.
Qed.

Lemma tabled_sat_sat_sound : sat_sound tabled_sat.
Proof.
  intros s. cbn [check get_model tabled_sat].
  destruct (session_eqb s (check_solution_session 1 2 [])) eqn:E;
    [|discriminate].
  intros _. apply session_eqb_eq in E. subst s.
  apply models_check_solution_session. simpl. split; [|split].
  - intros i Hi. assert (Hi' : i = 0 \/ i = 1) by lia.
    destruct Hi' as [->| ->]; vm_compute; split; discriminate.
  - intros [|i] color H; discriminate.
  - unfold monochromatic. vm_compute. intuition discriminate.
Qed.

Lemma tabled_sat_unsat_sound : unsat_sound tabled_sat.
Proof.
  intros s. cbn [check tabled_sat].
  destruct (session_eqb s (check_solution_session 1 2 [])); discriminate.
Qed.

Lemma assign_colors_valid_witness :
  valid_coloring 2 4 (assign_colors reference 2 4).
Proof.
  apply (assign_colors_valid reference reference_sat_sound 2 4).
  vm_compute. discriminate.
Defined.

Lemma assign_colors_nonempty_iff_witness :
  assign_colors reference 2 4 <> [] <-> exists l, valid_coloring 2 4 l.
Proof.
  apply (assign_colors_nonempty_iff reference reference_sat_sound
           reference_unsat_sound 2 4); [lia|].
  apply reference_decides_assign_colors.
Defined.

Lemma assign_colors_unsat_upward_witness : assign_colors reference 1 6 = [].
Proof.
  apply (assign_colors_unsat_upward reference reference_sat_sound
           reference_unsat_sound 2 5 1 6); [lia|lia|].
  vm_compute. reflexivity.
Defined.

Lemma assign_colors_enough_colors_witness :
  check reference (assign_colors_session 3 3) <> unsat /\
  List.length (assign_colors reference 3 3) = Z.to_nat 3.
Proof.
  destruct (assign_colors_enough_colors reference reference_unsat_sound 3 3)
    as [Hnot Hlen]; [lia|].
  split; [exact Hnot|]. apply Hlen, reference_decides_assign_colors.
Defined.

Lemma check_solution_triple_free_witness :
  check_solution reference 2 4 [1; 2; 2; 1] = (true, None).
Proof.
  apply (check_solution_triple_free reference reference_sat_sound 2 4).
  - simpl. lia.
  - apply triple_freeb_true. vm_compute. reflexivity.
Defined.

Lemma check_solution_decides_witness :
  fst (check_solution reference 2 4 [1; 2; 1; 1]) = triple_freeb 4 [1; 2; 1; 1].
Proof.
  apply (check_solution_decides reference reference_sat_sound
           reference_unsat_sound 2 4).
  - vm_compute. reflexivity.
  - vm_compute. discriminate.
Defined.

Lemma check_solution_degenerate_witness :
  check_solution reference 2 1 [7; 7; 7] = (true, None).
Proof.
  apply (check_solution_degenerate reference reference_sat_sound 2 1).
  left. lia.
Defined.

Lemma check_solution_surplus_witness :
  fst (check_solution tabled 2 4 ([1; 2; 2; 1] ++ [9]))
  = fst (check_solution tabled 2 4 [1; 2; 2; 1]).
Proof.
  apply (check_solution_surplus tabled tabled_sat_sound tabled_unsat_sound
           2 4 [1; 2; 2; 1] [9]).
  - simpl. lia.
  - vm_compute. discriminate.
  - vm_compute. discriminate.
Defined.

Lemma main_iterate_reference_5 :
  main_iterate reference 5
  = ([Took 1 1; Took 1 2; SchurNumber 1 2;
      Took 2 3; Took 2 4; Took 2 5; SchurNumber 2 5], (3, 6)).
Proof. vm_compute. reflexivity. Qed.

Lemma main_iterate_queries_witness :
  map snd [(1, 1); (1, 2); (2, 3); (2, 4); (2, 5)] = count_from 1 5 /\
  Forall (fun q => 1 <= fst q <= snd q)
         [(1, 1); (1, 2); (2, 3); (2, 4); (2, 5)] /\
  1 <= 3 <= 6.
Proof.
  exact (main_iterate_queries reference 5 _ 3 6 main_iterate_reference_5).
Defined.

Lemma main_iterate_schur_numbers_witness :
  map fst [(1, 2); (2, 5)] = count_from 1 2 /\ 3 = 1 + Z.of_nat 2.
Proof.
  exact (main_iterate_schur_numbers reference 5 _ 3 6 main_iterate_reference_5).
Defined.

Lemma main_iterate_failures_witness :
  [(1, 2); (2, 5)]
  = filter (failed reference) [(1, 1); (1, 2); (2, 3); (2, 4); (2, 5)].
Proof.
  exact (main_iterate_failures reference 5 _ 3 6 main_iterate_reference_5).
Defined.

Lemma main_iterate_first_five_witness :
  main_iterate reference 5
  = ([Took 1 1; Took 1 2; SchurNumber 1 2;
      Took 2 3; Took 2 4; Took 2 5; SchurNumber 2 5], (3, 6)).
Proof.
  apply (main_iterate_first_five reference reference_sat_sound
           reference_unsat_sound); apply reference_decides_assign_colors.
Defined.

Lemma assign_colors_session_outside_witness :
  models (Model (fun _ => 7) (fun _ i => if i <? 1 then 1 else 9))
         (assign_colors_session 1 1).
Proof.
  apply (assign_colors_session_outside 1 1
           (get_model reference (assign_colors_session 1 1))).
  - apply reference_sat_sound. vm_compute. reflexivity.
  - intros i Hi. replace i with 0 by lia. vm_compute. reflexivity.
Defined.

Lemma check_solution_empty_candidate_witness :
  exists x y z, check_solution tabled_sat 1 2 [] = (false, Some (x, y, z)).
Proof.
  apply (check_solution_empty_candidate tabled_sat tabled_sat_unsat_sound 1 2);
    [lia|lia|vm_compute; discriminate].
Defined.

Lemma check_solution_valid_assign_colors_witness :
  satisfiable (assign_colors_session 2 4) /\
  check reference (assign_colors_session 2 4) <> unsat.
Proof.
  apply (check_solution_valid_assign_colors reference reference_unsat_sound
           2 4 [1; 2; 2; 1]);
    [vm_compute; reflexivity|vm_compute; discriminate|vm_compute; reflexivity].
Defined.

Lemma main_iterate_schur_numbers_sound_witness :
  In (2, 5) [(1, 2); (2, 5)] <-> ~ exists l, valid_coloring 2 5 l.
Proof.
  apply (main_iterate_schur_numbers_sound reference reference_sat_sound
           reference_unsat_sound 5 _ 3 6 2 5 main_iterate_reference_5).
  - simpl. tauto.
  - apply reference_decides_assign_colors.
Defined.
